(** * sample.cpp: a generic stack, factorial on uint64_t, a palindrome test

    Shallow embedding of [namespace sample] of
    [integrations/tool-tui/crates/check/playground/cpp/sample.cpp].

    - [Stack<T>] wraps a [std::vector<T>]; the vector is a [list T] whose
      last element is [back()].  Member functions are computations in a
      small state-and-exception monad: a [throw] leaves the object as it
      was, so the state survives a failure.
    - [factorial] works on [uint64_t]: a [Z] in [0, 2^64) with the
      wrap-around written out.
    - [is_palindrome] works on [std::string]: a [list ascii]. *)

From Stdlib Require Import ZArith List String Ascii Bool Lia.
From stdpp Require Import base list.
From Equations Require Import Equations.
Import ListNotations.

Set Default Proof Using "Type".

(** ** Exceptions *)

(** [std::runtime_error(what)], the only exception type thrown here. *)
Inductive exception : Type :=
  | runtime_error (what : string).

(** The outcome of a call: it returns, it throws, or it runs into undefined
    behaviour of the standard library ([back()] or [pop_back()] on an empty
    vector). *)
Inductive outcome (A : Type) : Type :=
  | Return (a : A)
  | Throw (e : exception)
  | Undefined.
Arguments Return {A} a.
Arguments Throw {A} e.
Arguments Undefined {A}.

(** ** std::vector as used by the stack *)

Module vector.
Section ops.
Context {T : Type}.

(** [std::vector<T>{}]. *)
Definition init : list T := [].

(** [v.push_back(x)]. *)
Definition push_back (v : list T) (x : T) : list T := v ++ [x].

(** [v.back()]; [None] stands for the undefined call on an empty vector. *)
Definition back (v : list T) : option T := last v.

(** [v.pop_back()]; [None] on an empty vector, as for [back]. *)
Definition pop_back (v : list T) : option (list T) :=
  match v with [] => None | _ :: _ => Some (removelast v) end.

(** [v.empty()]. *)
Definition empty (v : list T) : bool :=
  match v with [] => true | _ :: _ => false end.

(** [v.size()]. *)
Definition size (v : list T) : nat := length v.
End ops.
End vector.

(** ** The monad of member functions

    A member function of [Stack<T>] returning [A] maps the object before the
    call to the outcome and the object after the call. *)

Section monad.
Context {S : Type}.

Definition method (A : Type) : Type := S → outcome A * S.

Definition ret {A} (a : A) : method A := λ s, (Return a, s).

Definition throw {A} (e : exception) : method A := λ s, (Throw e, s).

Definition bind {A B} (m : method A) (k : A → method B) : method B :=
  λ s, match m s with
       | (Return a, s') => k a s'
       | (Throw e, s') => (Throw e, s')
       | (Undefined, s') => (Undefined, s')
       end.

(** A library call that is undefined outside its precondition. *)
Definition defined {A} (o : option A) : method A :=
  λ s, match o with
       | Some a => (Return a, s)
       | None => (Undefined, s)
       end.

Definition get : method S := λ s, (Return s, s).

Definition put (s : S) : method unit := λ _, (Return tt, s).

(** [try { m } catch (const std::runtime_error& e) { h e }]. *)
Definition try_catch {A} (m : method A) (h : exception → method A) : method A :=
  λ s, match m s with
       | (Return a, s') => (Return a, s')
       | (Throw e, s') => h e s'
       | (Undefined, s') => (Undefined, s')
       end.
End monad.

Declare Scope method_scope.
Delimit Scope method_scope with method.
Notation "x <- m ;; k" := (bind m (λ x, k))
  (at level 100, m at next level, right associativity) : method_scope.
Notation "m ;; k" := (bind m (λ _, k))
  (at level 100, right associativity) : method_scope.
Local Open Scope method_scope.

(** ** template <typename T> class Stack *)

Module Stack.
Section Stack.
Context {T : Type}.

(** The class has one private member, [data_]. *)
Record t : Type := mk { data_ : list T }.

(** [Stack() = default]. *)
Definition init : t := mk vector.init.

(** The text both [throw] statements pass to [std::runtime_error]. *)
Definition empty_msg : string := "Stack is empty".

(** [void push(T value) { data_.push_back(std::move(value)); }] *)
Definition push (value : T) : method (S:=t) unit :=
  s <- get ;;
  put (mk (vector.push_back (data_ s) value)).

(** [T pop()] *)
Definition pop : method (S:=t) T :=
  s <- get ;;
  if vector.empty (data_ s) then throw (runtime_error empty_msg)
  else
    value <- defined (vector.back (data_ s)) ;;
    rest <- defined (vector.pop_back (data_ s)) ;;
    put (mk rest) ;;
    ret value.

(** [const T& top() const] *)
Definition top : method (S:=t) T :=
  s <- get ;;
  if vector.empty (data_ s) then throw (runtime_error empty_msg)
  else defined (vector.back (data_ s)).

(** [bool empty() const noexcept] *)
Definition empty : method (S:=t) bool :=
  s <- get ;; ret (vector.empty (data_ s)).

(** [size_t size() const noexcept] *)
Definition size : method (S:=t) nat :=
  s <- get ;; ret (vector.size (data_ s)).
End Stack.
Arguments t : clear implicits.
End Stack.

(** ** Clients of the stack *)

Section clients.
Context {T : Type}.

(** [for (v : values) stack.push(v);] *)
Fixpoint push_all (values : list T) : method (S:=Stack.t T) unit :=
  match values with
  | [] => ret tt
  | v :: rest => Stack.push v ;; push_all rest
  end.

(** [k] calls of [stack.pop()], the results in the order of the calls. *)
Fixpoint pop_n (k : nat) : method (S:=Stack.t T) (list T) :=
  match k with
  | O => ret []
  | S k' => v <- Stack.pop ;; vs <- pop_n k' ;; ret (v :: vs)
  end.

(** One call on the public interface. *)
Inductive call : Type :=
  | Push (value : T)
  | Pop
  | Top
  | Empty
  | Size.

(** What the caller sees of a call. *)
Inductive event : Type :=
  | Pushed
  | Popped (value : T)
  | Peeked (value : T)
  | IsEmpty (b : bool)
  | HasSize (n : nat)
  | Failed (c : call) (e : exception).

Definition perform (c : call) : method (S:=Stack.t T) event :=
  match c with
  | Push v => Stack.push v ;; ret Pushed
  | Pop => v <- Stack.pop ;; ret (Popped v)
  | Top => v <- Stack.top ;; ret (Peeked v)
  | Empty => b <- Stack.empty ;; ret (IsEmpty b)
  | Size => n <- Stack.size ;; ret (HasSize n)
  end.

(** A caller that goes on after an exception:
    [try { c } catch (const std::runtime_error& e) { }] for each call. *)
Fixpoint session (cs : list call) : method (S:=Stack.t T) (list event) :=
  match cs with
  | [] => ret []
  | c :: rest =>
      ev <- try_catch (perform c) (λ e, ret (Failed c e)) ;;
      evs <- session rest ;;
      ret (ev :: evs)
  end.

Definition is_pushed (ev : event) : bool :=
  match ev with Pushed => true | _ => false end.

Definition is_popped (ev : event) : bool :=
  match ev with Popped _ => true | _ => false end.

(** The number of pushes, and of pops, that succeeded. *)
Definition pushes (evs : list event) : nat := length (List.filter is_pushed evs).
Definition pops (evs : list event) : nat := length (List.filter is_popped evs).
End clients.
Arguments call : clear implicits.
Arguments event : clear implicits.

(** The stack part of [main]: three pushes, [size()], [top()], then
    [while (!stack.empty()) stack.pop()].  The loop runs at most [fuel]
    times. *)
Fixpoint drain {T} (fuel : nat) : method (S:=Stack.t T) (option (list T)) :=
  match fuel with
  | O => ret None
  | S fuel' =>
      b <- Stack.empty ;;
      if b then ret (Some [])
      else
        v <- Stack.pop ;;
        r <- drain fuel' ;;
        ret (option_map (cons v) r)
  end.

Definition main_stack : method (S:=Stack.t Z) (nat * Z * option (list Z)) :=
  Stack.push 1%Z ;;
  Stack.push 2%Z ;;
  Stack.push 3%Z ;;
  n <- Stack.size ;;
  t <- Stack.top ;;
  popped <- drain 4 ;;
  ret (n, t, popped).

(** ** constexpr uint64_t factorial(uint64_t n) *)

Local Open Scope Z_scope.

(** Arithmetic on [uint64_t] is modulo [2^64]. *)
Definition UINT64_MOD : Z := 2 ^ 64.

Definition wrap64 (z : Z) : Z := z mod UINT64_MOD.
Arguments wrap64 : simpl never.

(** The values a [uint64_t] holds. *)
Definition uint64 (z : Z) : Prop := 0 <= z < UINT64_MOD.

(** [return n <= 1 ? 1 : n * factorial(n - 1);]
    The recursion is on [n - 1], which is smaller than [n] once [n > 1]. *)
Equations factorial (n : Z) : Z by wf (Z.to_nat n) lt :=
  factorial n with decide (n <= 1) := {
    | left _ := 1
    | right Hgt := wrap64 (n * factorial (wrap64 (n - 1)))
  }.
Next Obligation.
  unfold wrap64, UINT64_MOD.
  assert ((n - 1) mod 2 ^ 64 <= n - 1) by (apply Z.mod_le; lia).
  assert (0 <= (n - 1) mod 2 ^ 64) by (apply Z.mod_pos_bound; lia).
  lia.
Qed.

(** The same body with the depth of the recursion bounded by [depth]:
    [None] when more than [depth] nested calls would be needed. *)
Fixpoint factorial_within (depth : nat) (n : Z) : option Z :=
  match depth with
  | O => None
  | S depth' =>
      if decide (n <= 1) then Some 1
      else option_map (λ r, wrap64 (n * r)) (factorial_within depth' (wrap64 (n - 1)))
  end.

(** [factorial(m)] is called from the body of [factorial(n)]. *)
Definition factorial_calls (m n : Z) : Prop :=
  ¬ n <= 1 ∧ m = wrap64 (n - 1).

(** The factorial of arithmetic, with no bound on the result. *)
Fixpoint math_factorial (k : nat) : Z :=
  match k with
  | O => 1
  | S k' => Z.of_nat k * math_factorial k'
  end.

(** ** bool is_palindrome(const std::string& str) *)

(** A [char] is eight bits; [code c] is its value as an [unsigned char]. *)
Definition code (c : ascii) : Z := Z.of_N (N_of_ascii c).

Section chars.
(** Whether plain [char] is signed is up to the implementation. *)
Variable char_is_signed : bool.

(** The conversion of a [char] argument to the [int] parameter of
    [std::isalnum] and [std::tolower]. *)
Definition char_to_int (c : ascii) : Z :=
  if char_is_signed && (128 <=? code c) then code c - 256 else code c.

(** [std::isalnum] in the default "C" locale, which [main] never changes:
    the digits and the letters of ASCII, and nothing else. *)
Definition isalnum (ch : Z) : bool :=
  ((48 <=? ch) && (ch <=? 57))
  || ((65 <=? ch) && (ch <=? 90))
  || ((97 <=? ch) && (ch <=? 122)).

(** [std::tolower] in the "C" locale: ['A'..'Z'] go to ['a'..'z'], every
    other value is returned as it is. *)
Definition tolower (ch : Z) : Z :=
  if (65 <=? ch) && (ch <=? 90) then ch + 32 else ch.

(** [std::copy_if(first, last, std::back_inserter(out), pred)]: each
    element satisfying [pred] is appended to [out], in order. *)
Fixpoint copy_if (pred : ascii → bool) (src out : list ascii) : list ascii :=
  match src with
  | [] => out
  | c :: src' => copy_if pred src' (if pred c then vector.push_back out c else out)
  end.

(** [std::reverse(first, last)]. *)
Definition reverse (l : list ascii) : list ascii := rev l.

(** [std::equal(first1, last1, first2, p)]: walks the first range and reads
    the second alongside, stopping at the first mismatch.  [None] when it
    would read past the end of the second range. *)
Fixpoint equal (r1 r2 : list ascii) (p : ascii → ascii → bool) : option bool :=
  match r1 with
  | [] => Some true
  | a :: r1' =>
      match r2 with
      | [] => None
      | b :: r2' => if p a b then equal r1' r2' p else Some false
      end
  end.

Definition is_palindrome (str : list ascii) : option bool :=
  let cleaned := copy_if (λ c, isalnum (char_to_int c)) str [] in
  let reversed := reverse cleaned in
  equal cleaned reversed
        (λ a b, tolower (char_to_int a) =? tolower (char_to_int b)).
End chars.

(** *** The palindrome property in the words of the specification *)

Definition is_digit (c : ascii) : Prop := 48 <= code c <= 57.
Definition is_upper (c : ascii) : Prop := 65 <= code c <= 90.
Definition is_lower (c : ascii) : Prop := 97 <= code c <= 122.

#[global] Instance is_digit_dec c : Decision (is_digit c).
Proof. unfold is_digit. apply _. Defined.
#[global] Instance is_upper_dec c : Decision (is_upper c).
Proof. unfold is_upper. apply _. Defined.
#[global] Instance is_lower_dec c : Decision (is_lower c).
Proof. unfold is_lower. apply _. Defined.

(** A character is alphanumeric when it is a digit or a letter. *)
Definition alphanumeric (c : ascii) : Prop :=
  is_digit c ∨ is_upper c ∨ is_lower c.

#[global] Instance alphanumeric_dec c : Decision (alphanumeric c).
Proof. unfold alphanumeric. apply _. Defined.

(** Two characters are the same up to case when they are equal or are the
    upper-case and lower-case forms of one letter. *)
Definition same_ignoring_case (a b : ascii) : Prop :=
  a = b
  ∨ (is_upper a ∧ code b = code a + 32)
  ∨ (is_upper b ∧ code a = code b + 32).

(** The subsequence of the alphanumeric characters of [s]. *)
Definition alphanumeric_subsequence (s : list ascii) : list ascii :=
  filter alphanumeric s.

(** [l] reads the same forward and backward, case ignored. *)
Definition reads_same_both_ways (l : list ascii) : Prop :=
  Forall2 same_ignoring_case l (rev l).

Definition spec_palindrome (s : list ascii) : Prop :=
  reads_same_both_ways (alphanumeric_subsequence s).

#[global] Instance ascii_eq_decision : EqDecision ascii := ascii_dec.

#[global] Instance same_ignoring_case_dec a b : Decision (same_ignoring_case a b).
Proof. unfold same_ignoring_case. apply _. Defined.

#[global] Instance spec_palindrome_dec s : Decision (spec_palindrome s).
Proof. unfold spec_palindrome, reads_same_both_ways. apply _. Defined.

(** * Properties *)

Local Open Scope nat_scope.

(** ** The vector *)

Section vector_facts.
Context {T : Type}.
Implicit Types (v : list T) (x : T).

Lemma vector_empty_true v : vector.empty v = true ↔ v = [].
Proof. destruct v; simpl; split; congruence. Qed.

Lemma vector_empty_false v : vector.empty v = false ↔ v ≠ [].
Proof. destruct v; simpl; split; congruence. Qed.

Lemma vector_empty_push_back v x : vector.empty (vector.push_back v x) = false.
Proof. destruct v; reflexivity. Qed.

Lemma vector_back_push_back v x : vector.back (vector.push_back v x) = Some x.
Proof. apply last_snoc. Qed.

Lemma vector_pop_back_push_back v x :
  vector.pop_back (vector.push_back v x) = Some v.
Proof.
  unfold vector.pop_back, vector.push_back.
  rewrite removelast_last. destruct v; reflexivity.
Qed.

(** A vector that is not empty is some vector with an element pushed. *)
Lemma vector_nonempty_inv v :
  v ≠ [] → ∃ v' x, v = vector.push_back v' x.
Proof.
  intros Hv. destruct (exists_last Hv) as (v' & x & ->). by exists v', x.
Qed.

Lemma vector_push_back_inj v1 v2 x1 x2 :
  vector.push_back v1 x1 = vector.push_back v2 x2 → v1 = v2 ∧ x1 = x2.
Proof. apply app_inj_tail. Qed.
End vector_facts.

(** ** What each member function computes *)

Section stack_facts.
Context {T : Type}.
Implicit Types (s : Stack.t T) (v : list T) (x : T).

Lemma push_eq x s :
  Stack.push x s = (Return tt, Stack.mk (vector.push_back (Stack.data_ s) x)).
Proof. reflexivity. Qed.

Lemma pop_empty : Stack.pop (Stack.mk (T:=T) []) =
  (Throw (runtime_error Stack.empty_msg), Stack.mk []).
Proof. reflexivity. Qed.

Lemma pop_push_back v x :
  Stack.pop (Stack.mk (vector.push_back v x)) = (Return x, Stack.mk v).
Proof.
  unfold Stack.pop, bind, get, defined, put, ret. simpl.
  rewrite vector_empty_push_back, vector_back_push_back,
    vector_pop_back_push_back. reflexivity.
Qed.

Lemma top_empty : Stack.top (Stack.mk (T:=T) []) =
  (Throw (runtime_error Stack.empty_msg), Stack.mk []).
Proof. reflexivity. Qed.

Lemma top_push_back v x :
  Stack.top (Stack.mk (vector.push_back v x)) =
  (Return x, Stack.mk (vector.push_back v x)).
Proof.
  unfold Stack.top, bind, get, defined. simpl.
  rewrite vector_empty_push_back, vector_back_push_back. reflexivity.
Qed.

Lemma empty_eq s : Stack.empty s = (Return (vector.empty (Stack.data_ s)), s).
Proof. reflexivity. Qed.

Lemma size_eq s : Stack.size s = (Return (length (Stack.data_ s)), s).
Proof. reflexivity. Qed.

(** Every stack is empty or has a top element above the rest. *)
Lemma stack_cases s :
  s = Stack.mk [] ∨ ∃ v x, s = Stack.mk (vector.push_back v x).
Proof.
  destruct s as [[|y l]]; [by left | right].
  destruct (vector_nonempty_inv (y :: l)) as (v & x & ->); [done | eauto].
Qed.

Lemma push_all_eq (values : list T) s :
  push_all values s = (Return tt, Stack.mk (Stack.data_ s ++ values)).
Proof.
  revert s. induction values as [|x values IH]; intros [v]; simpl.
  - unfold ret. by rewrite app_nil_r.
  - unfold bind at 1. rewrite push_eq, IH. simpl.
    unfold vector.push_back. by rewrite <- app_assoc.
Qed.

(** Popping as many elements as [values] has from a stack that ends in
    [values] returns them last to first and leaves what was below. *)
Lemma pop_n_app v (values : list T) :
  pop_n (length values) (Stack.mk (v ++ values)) =
  (Return (rev values), Stack.mk v).
Proof.
  induction values as [|x values IH] using rev_ind; [by rewrite app_nil_r|].
  rewrite length_app, Nat.add_comm, rev_unit, app_assoc. simpl.
  unfold bind at 1. fold (vector.push_back (v ++ values) x).
  rewrite pop_push_back. unfold bind at 1. by rewrite IH.
Qed.
End stack_facts.

Create Rewrite HintDb stack.
#[global] Hint Rewrite @push_eq @pop_push_back @top_push_back @pop_empty
  @top_empty @empty_eq @size_eq @push_all_eq : stack.

(** [main] prints size 3, top 3, then 3, 2, 1, and leaves the stack empty. *)
Example main_stack_run :
  main_stack Stack.init = (Return (3, 3%Z, Some [3; 2; 1]%Z), Stack.init).
Proof. reflexivity. Qed.

Example pop_after_failure :
  session [Pop; Push 7%Z; Top; Pop; Top; Size] Stack.init =
  (Return [Failed Pop (runtime_error "Stack is empty"); Pushed; Peeked 7%Z;
           Popped 7%Z; Failed Top (runtime_error "Stack is empty"); HasSize 0],
   Stack.init).
Proof. reflexivity. Qed.

(** C1. LIFO law: whatever values [v1 .. vk] are pushed onto a new stack,
    popping [k] times afterwards succeeds and returns [vk, .., v1], the values
    in the reverse of the order they were pushed in; the stack ends empty. *)
Theorem lifo_law {T : Type} (values : list T) :
  (push_all values ;; pop_n (length values)) Stack.init =
  (Return (rev values), Stack.init).
Proof.
  unfold bind. rewrite push_all_eq. simpl. apply (pop_n_app []).
Qed.

(** C2. [pop()] and [top()] throw [std::runtime_error("Stack is empty")]
    exactly when the stack is empty; neither throws anything else nor runs
    into undefined behaviour; on a stack that is not empty both return a
    value; and the call that throws leaves the stack as it was. *)
Theorem pop_top_throw_iff_empty {T : Type} (s : Stack.t T) :
  let failure := runtime_error "Stack is empty" in
  (fst (Stack.pop s) = Throw failure ↔ Stack.data_ s = [])
  ∧ (fst (Stack.top s) = Throw failure ↔ Stack.data_ s = [])
  ∧ (fst (Stack.empty s) = Return true ↔ Stack.data_ s = [])
  ∧ (∀ e, fst (Stack.pop s) = Throw e ∨ fst (Stack.top s) = Throw e → e = failure)
  ∧ fst (Stack.pop s) ≠ Undefined
  ∧ fst (Stack.top s) ≠ Undefined
  ∧ (Stack.data_ s ≠ [] →
      (∃ x, fst (Stack.pop s) = Return x) ∧ (∃ x, fst (Stack.top s) = Return x))
  ∧ (Stack.data_ s = [] → snd (Stack.pop s) = s ∧ snd (Stack.top s) = s).
Proof.
  intros failure.
  destruct (stack_cases s) as [-> | (v & x & ->)].
  - autorewrite with stack. simpl.
    repeat split; try done.
    intros e [[= <-] | [= <-]]; reflexivity.
  - autorewrite with stack. simpl.
    rewrite vector_empty_push_back.
    assert (vector.push_back v x ≠ []) by (unfold vector.push_back; by destruct v).
    repeat split; try done; eauto.
    intros e [? | ?]; discriminate.
Qed.

(** C6. [push(v)] always returns; afterwards [v] is the top element, [size()]
    is one more than before, and the elements stored before are all still
    there, in the same order, below [v]: a [pop()] gives back [v] and the
    stack as it was before the push. *)
Theorem push_always_succeeds {T : Type} (s : Stack.t T) (value : T) :
  ∃ s',
    Stack.push value s = (Return tt, s')
    ∧ Stack.top s' = (Return value, s')
    ∧ fst (Stack.size s') = Return (S (length (Stack.data_ s)))
    ∧ fst (Stack.size s) = Return (length (Stack.data_ s))
    ∧ Stack.data_ s' = Stack.data_ s ++ [value]
    ∧ take (length (Stack.data_ s)) (Stack.data_ s') = Stack.data_ s
    ∧ Stack.pop s' = (Return value, s).
Proof.
  destruct s as [v]. exists (Stack.mk (vector.push_back v value)).
  rewrite push_eq, top_push_back, pop_push_back, !size_eq. simpl.
  unfold vector.push_back. rewrite length_app, Nat.add_comm. simpl.
  repeat split. by rewrite take_app_length.
Qed.

(** C7. On a stack that is not empty, [top()] returns the last element pushed
    and not yet popped, and the stack after the call is the stack before it:
    the same elements in the same order, hence the same [size()]. *)
Theorem top_does_not_remove {T : Type} (s : Stack.t T) :
  Stack.data_ s ≠ [] →
  ∃ x,
    Stack.top s = (Return x, s)
    ∧ last (Stack.data_ s) = Some x
    ∧ Stack.data_ (snd (Stack.top s)) = Stack.data_ s
    ∧ Stack.size (snd (Stack.top s)) = Stack.size s.
Proof.
  intros Hne. destruct (stack_cases s) as [-> | (v & x & ->)]; [done|].
  exists x. rewrite top_push_back. simpl.
  repeat split. apply last_snoc.
Qed.

Lemma top_does_not_remove_witness :
  ∃ x : Z,
    Stack.top (Stack.mk [1; 2; 3]%Z) = (Return x, Stack.mk [1; 2; 3]%Z)
    ∧ last [1; 2; 3]%Z = Some x
    ∧ Stack.data_ (snd (Stack.top (Stack.mk [1; 2; 3]%Z))) = [1; 2; 3]%Z
    ∧ Stack.size (snd (Stack.top (Stack.mk [1; 2; 3]%Z))) =
      Stack.size (Stack.mk [1; 2; 3]%Z).
Proof. apply (top_does_not_remove (Stack.mk [1; 2; 3]%Z)). simpl. discriminate. Defined.

(** C10. On a stack that is not empty, [top()] and [pop()] return the same
    value; [pop()] takes exactly that one element off the end and leaves the
    others as they were, in order. *)
Theorem top_pop_agree {T : Type} (s : Stack.t T) :
  Stack.data_ s ≠ [] →
  ∃ x s',
    Stack.top s = (Return x, s)
    ∧ Stack.pop s = (Return x, s')
    ∧ Stack.data_ s = Stack.data_ s' ++ [x]
    ∧ length (Stack.data_ s) = S (length (Stack.data_ s')).
Proof.
  intros Hne. destruct (stack_cases s) as [-> | (v & x & ->)]; [done|].
  exists x, (Stack.mk v). rewrite top_push_back, pop_push_back. simpl.
  unfold vector.push_back. rewrite length_app, Nat.add_comm. done.
Qed.

Lemma top_pop_agree_witness :
  ∃ (x : Z) s',
    Stack.top (Stack.mk [1; 2; 3]%Z) = (Return x, Stack.mk [1; 2; 3]%Z)
    ∧ Stack.pop (Stack.mk [1; 2; 3]%Z) = (Return x, s')
    ∧ [1; 2; 3]%Z = Stack.data_ s' ++ [x]
    ∧ length [1; 2; 3]%Z = S (length (Stack.data_ s')).
Proof. apply (top_pop_agree (Stack.mk [1; 2; 3]%Z)). simpl. discriminate. Defined.

(** ** Counting pushes and pops *)

Section counting.
Context {T : Type}.
Implicit Types (s : Stack.t T) (c : call T) (cs : list (call T)).

(** One call, the exception caught: it never leaves the caller without an
    event, and the size moves with the event. *)
Lemma perform_size c s :
  ∃ ev s',
    try_catch (perform c) (λ e, ret (Failed c e)) s = (Return ev, s')
    ∧ length (Stack.data_ s') + pops [ev] =
      length (Stack.data_ s) + pushes [ev].
Proof.
  destruct c; unfold try_catch, perform, bind.
  - rewrite push_eq. simpl. do 2 eexists. split; [reflexivity|].
    simpl. unfold vector.push_back. rewrite length_app.
    unfold pops, pushes. simpl. lia.
  - destruct (stack_cases s) as [-> | (v & x & ->)].
    + rewrite pop_empty. do 2 eexists. split; reflexivity.
    + rewrite pop_push_back. do 2 eexists. split; [reflexivity|].
      simpl. unfold vector.push_back. rewrite length_app.
      unfold pops, pushes. simpl. lia.
  - destruct (stack_cases s) as [-> | (v & x & ->)].
    + rewrite top_empty. do 2 eexists. split; reflexivity.
    + rewrite top_push_back. do 2 eexists. split; reflexivity.
  - rewrite empty_eq. do 2 eexists. split; reflexivity.
  - rewrite size_eq. do 2 eexists. split; reflexivity.
Qed.

Lemma pushes_cons (ev : event T) evs : pushes (ev :: evs) = pushes [ev] + pushes evs.
Proof. unfold pushes. simpl. destruct (is_pushed ev); reflexivity. Qed.

Lemma pops_cons (ev : event T) evs : pops (ev :: evs) = pops [ev] + pops evs.
Proof. unfold pops. simpl. destruct (is_popped ev); reflexivity. Qed.

(** Any sequence of calls, from any stack. *)
Lemma session_size cs s :
  ∃ evs s',
    session cs s = (Return evs, s')
    ∧ length evs = length cs
    ∧ length (Stack.data_ s') + pops evs = length (Stack.data_ s) + pushes evs.
Proof.
  revert s. induction cs as [|c cs IH]; intros s; simpl.
  - exists [], s. repeat split.
  - destruct (perform_size c s) as (ev & s1 & Hc & Hsz).
    destruct (IH s1) as (evs & s2 & Hcs & Hlen & Hsz').
    exists (ev :: evs), s2. unfold bind at 1. rewrite Hc.
    unfold bind at 1. rewrite Hcs. repeat split.
    + simpl. by rewrite Hlen.
    + rewrite pushes_cons, pops_cons. lia.
Qed.

(** [j] pops from a stack holding at least [j] elements all succeed. *)
Lemma pop_n_take (j : nat) (v : list T) :
  j ≤ length v →
  pop_n j (Stack.mk v) =
  (Return (rev (drop (length v - j) v)), Stack.mk (take (length v - j) v)).
Proof.
  intros Hj.
  rewrite <- (take_drop (length v - j) v) at 1.
  replace j with (length (drop (length v - j) v)) at 1
    by (rewrite length_drop; lia).
  apply pop_n_app.
Qed.
End counting.

(** C5. [size()] is the number of pushes minus the number of pops that
    succeeded.  Every single call keeps this balance, so it holds after any
    sequence of calls, from a new stack or from any other; on a new stack the
    pops never outnumber the pushes.  In particular [k] pushes followed by
    [j ≤ k] pops all succeed and leave [size() = k - j]. *)
Theorem size_is_pushes_minus_pops {T : Type} :
  (∀ (c : call T) (s : Stack.t T), ∃ ev s',
      try_catch (perform c) (λ e, ret (Failed c e)) s = (Return ev, s')
      ∧ length (Stack.data_ s') + pops [ev] = length (Stack.data_ s) + pushes [ev])
  ∧ (∀ (cs : list (call T)) (s : Stack.t T), ∃ evs s',
      session cs s = (Return evs, s')
      ∧ length (Stack.data_ s') + pops evs = length (Stack.data_ s) + pushes evs)
  ∧ (∀ cs : list (call T), ∃ evs s',
      session cs Stack.init = (Return evs, s')
      ∧ pops evs ≤ pushes evs
      ∧ Stack.size s' = (Return (pushes evs - pops evs), s'))
  ∧ (∀ (values : list T) (j : nat), j ≤ length values → ∃ popped s',
      (push_all values ;; pop_n j) Stack.init = (Return popped, s')
      ∧ length popped = j
      ∧ Stack.size s' = (Return (length values - j), s')).
Proof.
  split; [apply perform_size|].
  split; [intros cs s; destruct (session_size cs s) as (evs & s' & ? & ? & ?); eauto|].
  split.
  - intros cs. destruct (session_size cs Stack.init) as (evs & s' & Hrun & _ & Hsz).
    exists evs, s'. simpl in Hsz. rewrite size_eq.
    repeat split; [done | lia | do 2 f_equal; lia].
  - intros values j Hj. unfold bind. rewrite push_all_eq. simpl.
    rewrite pop_n_take by done. do 2 eexists. split; [reflexivity|].
    rewrite length_rev, length_drop, size_eq. simpl. rewrite length_take.
    split; [lia | do 2 f_equal; lia].
Qed.

Lemma size_is_pushes_minus_pops_witness :
  ∃ popped s',
    (push_all [10; 20; 30; 40; 50]%Z ;; pop_n 3) Stack.init = (Return popped, s')
    ∧ length popped = 3
    ∧ Stack.size s' = (Return (length [10; 20; 30; 40; 50]%Z - 3), s').
Proof.
  apply (proj2 (proj2 (proj2 (@size_is_pushes_minus_pops Z)))). simpl. lia.
Defined.

(** ** factorial *)

Local Open Scope Z_scope.

Lemma wrap64_range z : uint64 (wrap64 z).
Proof. apply Z.mod_pos_bound. reflexivity. Qed.

Lemma wrap64_small z : uint64 z → wrap64 z = z.
Proof. apply Z.mod_small. Qed.

(** The body of the function, as an equation. *)
Lemma factorial_body n :
  factorial n =
  if decide (n <= 1) then 1 else wrap64 (n * factorial (wrap64 (n - 1))).
Proof.
  rewrite factorial_equation_1. destruct (decide (n <= 1)); reflexivity.
Qed.

Lemma factorial_range n : uint64 (factorial n).
Proof.
  rewrite factorial_body. destruct (decide (n <= 1)).
  - unfold uint64, UINT64_MOD. lia.
  - apply wrap64_range.
Qed.

(** The depth-bounded evaluation agrees with [factorial] as soon as the
    bound allows [n] nested calls (one call for [n <= 1]). *)
Lemma factorial_within_enough (depth : nat) : ∀ n,
  (0 < depth)%nat → (Z.to_nat n ≤ depth)%nat →
  factorial_within depth n = Some (factorial n).
Proof.
  induction depth as [|depth IH]; intros n Hpos Hn; [lia|].
  cbn [factorial_within]. rewrite factorial_body. destruct (decide (n <= 1)); [reflexivity|].
  assert (0 <= (n - 1) mod 2 ^ 64 <= n - 1)
    by (split; [apply Z.mod_pos_bound; lia | apply Z.mod_le; lia]).
  rewrite IH; [reflexivity | lia | unfold wrap64, UINT64_MOD; lia].
Qed.

Lemma factorial_within_mono (depth : nat) : ∀ n r,
  factorial_within depth n = Some r → factorial_within (S depth) n = Some r.
Proof.
  induction depth as [|depth IH]; intros n r; [discriminate|].
  intros H. cbn [factorial_within] in H. change (factorial_within (S (S depth)) n) with
    (if decide (n <= 1) then Some 1
     else option_map (λ r, wrap64 (n * r))
            (factorial_within (S depth) (wrap64 (n - 1)))).
  destruct (decide (n <= 1)); [assumption|].
  destruct (factorial_within depth (wrap64 (n - 1))) as [r'|] eqn:E;
    [|discriminate].
  by rewrite (IH _ _ E).
Qed.

Lemma factorial_calls_wf : well_founded factorial_calls.
Proof.
  apply (well_founded_lt_compat _ Z.to_nat).
  intros m n [Hn ->].
  assert (0 <= (n - 1) mod 2 ^ 64 <= n - 1)
    by (split; [apply Z.mod_pos_bound; lia | apply Z.mod_le; lia]).
  unfold wrap64, UINT64_MOD. lia.
Qed.

(** Overflow wraps: [21!] no longer fits 64 bits, and from [66!] on every
    factorial is a multiple of [2^64]. *)
Example factorial_20 : factorial 20 = 2432902008176640000.
Proof. vm_compute. reflexivity. Qed.

Example factorial_21 : factorial 21 = 51090942171709440000 - 2 * 2 ^ 64.
Proof. vm_compute. reflexivity. Qed.

Example factorial_66 : factorial 66 = 0.
Proof. vm_compute. reflexivity. Qed.

(** C4. For every [uint64_t] value [n]: [factorial(n)] is [1] when [n <= 1],
    and otherwise [n * factorial(n - 1)] reduced modulo [2^64]; the result is
    again a [uint64_t] value, whatever [n] is (overflow wraps, nothing fails).
    [factorial(0) = 1], [factorial(1) = 1] and [factorial(5) = 120]. *)
Theorem factorial_spec :
  (∀ n, uint64 n →
     (n <= 1 → factorial n = 1)
     ∧ (1 < n → factorial n = (n * factorial (n - 1)) mod 2 ^ 64)
     ∧ 0 <= factorial n < 2 ^ 64)
  ∧ factorial 0 = 1
  ∧ factorial 1 = 1
  ∧ factorial 5 = 120.
Proof.
  split; [|split; [|split]; vm_compute; reflexivity].
  intros n Hn. split; [|split; [|split]].
  - intros Hle. rewrite factorial_body. by destruct (decide (n <= 1)).
  - intros Hgt. rewrite factorial_body. destruct (decide (n <= 1)); [lia|].
    rewrite (wrap64_small (n - 1)); [reflexivity|].
    unfold uint64 in *. lia.
  - apply factorial_range.
  - apply factorial_range.
Qed.

Lemma factorial_spec_witness :
  (10 <= 1 → factorial 10 = 1)
  ∧ (1 < 10 → factorial 10 = (10 * factorial (10 - 1)) mod 2 ^ 64)
  ∧ 0 <= factorial 10 < 2 ^ 64.
Proof. apply (proj1 factorial_spec 10). unfold uint64, UINT64_MOD. lia. Defined.

(** C8. [factorial] is total on [uint64_t]: for every such [n] the evaluation
    finishes within [max 1 n] nested calls and returns a [uint64_t] value,
    the same at every larger bound, and that value depends on [n] alone; the
    chain of recursive calls [n, n - 1, ...] is well-founded. *)
Theorem factorial_total (n : Z) :
  uint64 n →
  ∃ r,
    uint64 r
    ∧ factorial n = r
    ∧ (∀ depth : nat, (0 < depth)%nat → (Z.to_nat n ≤ depth)%nat →
         factorial_within depth n = Some r)
    ∧ Acc factorial_calls n.
Proof.
  intros _. exists (factorial n). split; [|split; [|split]].
  - apply factorial_range.
  - reflexivity.
  - intros depth. apply factorial_within_enough.
  - apply factorial_calls_wf.
Qed.

Lemma factorial_total_witness :
  ∃ r,
    uint64 r
    ∧ factorial 5 = r
    ∧ (∀ depth : nat, (0 < depth)%nat → (Z.to_nat 5 ≤ depth)%nat →
         factorial_within depth 5 = Some r)
    ∧ Acc factorial_calls 5.
Proof. apply (factorial_total 5). unfold uint64, UINT64_MOD. lia. Defined.

(** ** is_palindrome *)

Lemma code_range c : 0 <= code c < 256.
Proof. unfold code. pose proof (N_ascii_bounded c). lia. Qed.

Lemma code_inj a b : code a = code b → a = b.
Proof.
  unfold code. intros H%(inj Z.of_N).
  rewrite <- (ascii_N_embedding a), <- (ascii_N_embedding b). by rewrite H.
Qed.

Ltac leb_cases :=
  repeat match goal with
    | |- context [(?a <=? ?b)%Z] => destruct (Z.leb_spec a b)
    | |- context [(?a =? ?b)%Z] => destruct (Z.eqb_spec a b)
    end.

Section palindrome_facts.
Variable sg : bool.

Lemma char_to_int_cases c :
  char_to_int sg c = code c
  ∨ (128 <= code c ∧ char_to_int sg c = code c - 256).
Proof.
  unfold char_to_int.
  destruct sg; simpl; [destruct (Z.leb_spec 128 (code c))|]; auto.
Qed.

Lemma char_to_int_inj a b : char_to_int sg a = char_to_int sg b → a = b.
Proof.
  intros H. apply code_inj.
  pose proof (code_range a). pose proof (code_range b).
  destruct (char_to_int_cases a) as [Ea | [? Ea]],
    (char_to_int_cases b) as [Eb | [? Eb]]; lia.
Qed.

(** On the values of [char], [std::isalnum] is true on the digits and
    letters, whichever signedness [char] has. *)
Lemma isalnum_alphanumeric c :
  isalnum (char_to_int sg c) = true ↔ alphanumeric c.
Proof.
  unfold isalnum, alphanumeric, is_digit, is_upper, is_lower.
  pose proof (code_range c).
  destruct (char_to_int_cases c) as [-> | [? ->]];
    leb_cases; simpl; split; intros; first [done | lia].
Qed.

(** Equal after [std::tolower] is equal up to case. *)
Lemma tolower_same a b :
  (tolower (char_to_int sg a) =? tolower (char_to_int sg b)) = true
  ↔ same_ignoring_case a b.
Proof.
  rewrite Z.eqb_eq. unfold same_ignoring_case, is_upper.
  pose proof (code_range a). pose proof (code_range b).
  split.
  - intros Hlow.
    destruct (decide (char_to_int sg a = char_to_int sg b)) as [E|E];
      [left; by apply char_to_int_inj|right].
    revert Hlow E. unfold tolower.
    destruct (char_to_int_cases a) as [-> | [? ->]],
      (char_to_int_cases b) as [-> | [? ->]]; leb_cases; simpl; lia.
  - intros [-> | Hab]; [reflexivity|]. unfold tolower.
    destruct (char_to_int_cases a) as [-> | [? ->]],
      (char_to_int_cases b) as [-> | [? ->]]; leb_cases; simpl; lia.
Qed.

Lemma copy_if_filter (src out : list ascii) :
  copy_if (λ c, isalnum (char_to_int sg c)) src out =
  out ++ filter alphanumeric src.
Proof.
  revert out. induction src as [|c src IH]; intros out; simpl.
  - by rewrite app_nil_r.
  - rewrite IH, filter_cons.
    destruct (isalnum (char_to_int sg c)) eqn:E.
    + apply isalnum_alphanumeric in E. rewrite decide_True by done.
      unfold vector.push_back. by rewrite <- app_assoc.
    + rewrite decide_False; [done|].
      intros Hc%isalnum_alphanumeric. congruence.
Qed.

(** On ranges of one length [std::equal] stays inside the second range
    and decides whether the predicate relates the ranges pointwise. *)
Lemma equal_Forall2 (p : ascii → ascii → bool) (r1 : list ascii) : ∀ r2,
  length r1 = length r2 →
  ∃ b, equal r1 r2 p = Some b
       ∧ (b = true ↔ Forall2 (λ x y, p x y = true) r1 r2).
Proof.
  induction r1 as [|x r1 IH]; intros [|y r2] Hlen; try discriminate.
  - exists true. split; [reflexivity|]. split; [constructor | reflexivity].
  - simpl. destruct (p x y) eqn:E.
    + destruct (IH r2) as (b & -> & Hb); [by injection Hlen|].
      exists b. split; [reflexivity|]. rewrite Hb. split.
      * by constructor.
      * by inversion 1.
    + exists false. split; [reflexivity|]. split; [discriminate|].
      inversion 1. congruence.
Qed.

Lemma is_palindrome_spec (str : list ascii) :
  ∃ b, is_palindrome sg str = Some b ∧ (b = true ↔ spec_palindrome str).
Proof.
  unfold is_palindrome, spec_palindrome, reads_same_both_ways,
    alphanumeric_subsequence, reverse.
  rewrite copy_if_filter. simpl.
  destruct (equal_Forall2
    (λ a b, tolower (char_to_int sg a) =? tolower (char_to_int sg b))
    (filter alphanumeric str) (rev (filter alphanumeric str)))
    as (b & Hb & Hiff); [by rewrite length_rev|].
  exists b. split; [done|]. rewrite Hiff.
  split; intros HF; (eapply Forall2_impl; [exact HF|]);
    intros x y; apply tolower_same.
Qed.
End palindrome_facts.

Example is_palindrome_mixed_case sg :
  is_palindrome sg (list_ascii_of_string "Was it a car or a cat I saw?") = Some true.
Proof. destruct sg; vm_compute; reflexivity. Qed.

(** ['0'] and ['P'] differ by 32 but are not two cases of one letter. *)
Example is_palindrome_digit_letter sg :
  is_palindrome sg (list_ascii_of_string "0P") = Some false.
Proof. destruct sg; vm_compute; reflexivity. Qed.

(** Bytes above 127 are not alphanumeric in the "C" locale. *)
Example is_palindrome_high_bytes sg :
  is_palindrome sg ["a"; ascii_of_nat 233; ascii_of_nat 200; "A"]%char = Some true.
Proof. destruct sg; vm_compute; reflexivity. Qed.

Example spec_palindrome_decides :
  bool_decide (spec_palindrome (list_ascii_of_string "A man a plan a canal Panama")) = true
  ∧ bool_decide (spec_palindrome (list_ascii_of_string "hello")) = false.
Proof. split; vm_compute; reflexivity. Qed.

(** C3. [is_palindrome(s)] returns, and it returns true exactly when the
    alphanumeric characters of [s], taken in order and compared without
    regard to case, read the same forward and backward.
    ["A man a plan a canal Panama"] is a palindrome, ["hello"] is not. *)
Theorem is_palindrome_correct :
  (∀ (char_is_signed : bool) (s : list ascii),
     ∃ b, is_palindrome char_is_signed s = Some b
          ∧ (b = true ↔ spec_palindrome s))
  ∧ (∀ char_is_signed,
       is_palindrome char_is_signed
         (list_ascii_of_string "A man a plan a canal Panama") = Some true)
  ∧ (∀ char_is_signed,
       is_palindrome char_is_signed (list_ascii_of_string "hello") = Some false).
Proof.
  split; [exact is_palindrome_spec|].
  split; intros []; vm_compute; reflexivity.
Qed.

(** C9. A string without alphanumeric characters, the empty string among
    them, is a palindrome. *)
Theorem is_palindrome_no_alnum (char_is_signed : bool) (s : list ascii) :
  s = [] ∨ Forall (λ c, ¬ alphanumeric c) s →
  is_palindrome char_is_signed s = Some true
  ∧ is_palindrome char_is_signed (list_ascii_of_string "") = Some true.
Proof.
  intros Hs. split; [|reflexivity].
  assert (Hall : Forall (λ c, ¬ alphanumeric c) s)
    by (destruct Hs as [-> | ?]; [constructor | assumption]).
  unfold is_palindrome. rewrite copy_if_filter. simpl.
  replace (filter alphanumeric s) with (@nil ascii); [reflexivity|].
  clear Hs. induction Hall as [|c s Hc _ IH]; [reflexivity|].
  by rewrite filter_cons, decide_False.
Qed.

Lemma is_palindrome_no_alnum_witness :
  is_palindrome true (list_ascii_of_string " ,.- !?") = Some true
  ∧ is_palindrome true (list_ascii_of_string "") = Some true.
Proof.
  apply (is_palindrome_no_alnum true (list_ascii_of_string " ,.- !?")).
  right. unfold alphanumeric, is_digit, is_upper, is_lower.
  repeat constructor; vm_compute; intuition congruence.
Defined.

(** * Further properties *)

(** ** The stack and the loop of [main] *)

Local Open Scope nat_scope.

Section stack_more.
Context {T : Type}.
Implicit Types (s : Stack.t T) (v : list T) (x : T).

Lemma take_snoc_short v x (k : nat) :
  k ≤ length v → take k (v ++ [x]) = take k v.
Proof. intros Hk. by rewrite take_app_le. Qed.

(** The loop [while (!stack.empty()) stack.pop()], run for at most [fuel]
    rounds, on a stack holding [v]. *)
Lemma drain_eq (fuel : nat) : ∀ v,
  drain fuel (Stack.mk v) =
  (Return (if decide (length v < fuel) then Some (rev v) else None),
   Stack.mk (take (length v - fuel) v)).
Proof.
  induction fuel as [|fuel IH]; intros v.
  - cbn [drain]. unfold ret. rewrite Nat.sub_0_r, firstn_all.
    destruct (decide (length v < 0)); [lia | reflexivity].
  - destruct (stack_cases (Stack.mk v)) as [[= ->] | (v' & x & [= ->])].
    + cbn [drain]. unfold bind, ret. rewrite empty_eq. cbn.
      destruct (decide (0 < S fuel)); [reflexivity | lia].
    + cbn [drain]. unfold bind at 1. rewrite empty_eq. cbn [Stack.data_].
      rewrite vector_empty_push_back. unfold bind at 1.
      rewrite pop_push_back. unfold bind at 1. rewrite IH. unfold ret.
      unfold vector.push_back. rewrite length_app, rev_unit. simpl.
      replace (length v' + 1 - S fuel) with (length v' - fuel) by lia.
      rewrite take_snoc_short by lia.
      destruct (decide (length v' < fuel)), (decide (length v' + 1 < S fuel));
        (reflexivity || lia).
Qed.

(** More pops than elements: the pops that succeed empty the stack, the next
    one throws, and the rest are not reached. *)
Lemma pop_n_short (j : nat) : ∀ v,
  length v < j →
  pop_n j (Stack.mk v) = (Throw (runtime_error "Stack is empty"), Stack.mk []).
Proof.
  induction j as [|j IH]; intros v Hj; [lia|].
  destruct (stack_cases (Stack.mk v)) as [[= ->] | (v' & x & [= ->])].
  - reflexivity.
  - cbn [pop_n]. unfold bind at 1. rewrite pop_push_back.
    unfold bind at 1. rewrite IH; [reflexivity|].
    unfold vector.push_back in Hj. rewrite length_app in Hj. simpl in Hj. lia.
Qed.
End stack_more.

(** X1. The loop of [main], [while (!stack.empty()) stack.pop()], given more
    rounds than the stack has elements, does not throw: it stops with the
    stack empty, having popped every element, the last pushed first. *)
Theorem drain_empties {T : Type} (fuel : nat) (s : Stack.t T) :
  length (Stack.data_ s) < fuel →
  drain fuel s = (Return (Some (rev (Stack.data_ s))), Stack.init)
  ∧ fst (Stack.empty (snd (drain fuel s))) = Return true.
Proof.
  intros Hfuel. destruct s as [v]. simpl in Hfuel. rewrite drain_eq.
  rewrite decide_True by done.
  replace (length v - fuel) with 0 by lia. by rewrite take_0.
Qed.

Lemma drain_empties_witness :
  drain 4 (Stack.mk [1; 2; 3]%Z) = (Return (Some (rev [1; 2; 3]%Z)), Stack.init)
  ∧ fst (Stack.empty (snd (drain 4 (Stack.mk [1; 2; 3]%Z)))) = Return true.
Proof. apply (drain_empties 4 (Stack.mk [1; 2; 3]%Z)). simpl. lia. Defined.

(** X2. Pushing [values] onto any stack and then popping [j] times, [j] no
    more than the number pushed, returns the last [j] values pushed, the
    latest first; what was on the stack before and the first values pushed
    stay, in their order. *)
Theorem push_all_pop_n_frame {T : Type} (s : Stack.t T) (values : list T) (j : nat) :
  j ≤ length values →
  (push_all values ;; pop_n j) s =
  (Return (rev (drop (length values - j) values)),
   Stack.mk (Stack.data_ s ++ take (length values - j) values)).
Proof.
  intros Hj. unfold bind. rewrite push_all_eq.
  rewrite <- (take_drop (length values - j) values) at 1.
  rewrite app_assoc.
  replace j with (length (drop (length values - j) values)) at 1
    by (rewrite length_drop; lia).
  apply pop_n_app.
Qed.

Lemma push_all_pop_n_frame_witness :
  (push_all [3; 4; 5]%Z ;; pop_n 2) (Stack.mk [1; 2]%Z) =
  (Return (rev (drop (length [3; 4; 5]%Z - 2) [3; 4; 5]%Z)),
   Stack.mk ([1; 2]%Z ++ take (length [3; 4; 5]%Z - 2) [3; 4; 5]%Z)).
Proof. apply (push_all_pop_n_frame (Stack.mk [1; 2]%Z) [3; 4; 5]%Z 2). simpl. lia. Defined.

(** X3. Popping more often than the stack has elements throws
    [std::runtime_error("Stack is empty")]; the pops made before the throw
    are not undone, so the stack is left empty. *)
Theorem pop_n_too_many {T : Type} (s : Stack.t T) (j : nat) :
  length (Stack.data_ s) < j →
  pop_n j s = (Throw (runtime_error "Stack is empty"), Stack.init).
Proof. destruct s as [v]. apply pop_n_short. Qed.

Lemma pop_n_too_many_witness :
  pop_n 3 (Stack.mk [1; 2]%Z) = (Throw (runtime_error "Stack is empty"), Stack.init).
Proof. apply (pop_n_too_many (Stack.mk [1; 2]%Z) 3). simpl. lia. Defined.

(** X4. [empty()] answers true exactly when [size()] answers [0], and
    neither call changes the stack. *)
Theorem empty_iff_size_zero {T : Type} (s : Stack.t T) :
  ∃ (b : bool) (n : nat),
    Stack.empty s = (Return b, s)
    ∧ Stack.size s = (Return n, s)
    ∧ (b = true ↔ n = 0).
Proof.
  exists (vector.empty (Stack.data_ s)), (length (Stack.data_ s)).
  rewrite empty_eq, size_eq. repeat split.
  - intros ->%vector_empty_true. reflexivity.
  - intros ->%length_zero_iff_nil. reflexivity.
Qed.

(** ** factorial and the factorial of arithmetic *)

Local Open Scope Z_scope.

Lemma math_factorial_pos k : 1 <= math_factorial k.
Proof. induction k as [|k IH]; [done|]. cbn [math_factorial]. nia. Qed.

Lemma math_factorial_mono (j k : nat) :
  (j ≤ k)%nat → math_factorial j <= math_factorial k.
Proof.
  induction 1 as [|k _ IH]; [lia|].
  cbn [math_factorial]. pose proof (math_factorial_pos k). nia.
Qed.

Lemma factorial_of_nat (k : nat) :
  Z.of_nat k < 2 ^ 64 →
  factorial (Z.of_nat k) = math_factorial k mod 2 ^ 64.
Proof.
  induction k as [|k IH]; intros Hk; [reflexivity|].
  rewrite factorial_body. destruct (decide (Z.of_nat (S k) <= 1)) as [Hle|Hgt].
  - assert (k = 0%nat) as -> by lia. reflexivity.
  - replace (Z.of_nat (S k) - 1) with (Z.of_nat k) by lia.
    rewrite (wrap64_small (Z.of_nat k)) by (unfold uint64, UINT64_MOD; lia).
    rewrite IH by lia. cbn [math_factorial]. unfold wrap64, UINT64_MOD.
    apply Z.mul_mod_idemp_r. lia.
Qed.

(** X5. On every [uint64_t] value [n], [factorial(n)] is [n!] reduced modulo
    [2^64]: the wrap-around at each multiplication loses nothing beyond
    that. *)
Theorem factorial_is_fact_mod (n : Z) :
  uint64 n →
  factorial n = math_factorial (Z.to_nat n) mod 2 ^ 64.
Proof.
  intros [Hlo Hhi]. rewrite <- (Z2Nat.id n) at 1 by done.
  apply factorial_of_nat. unfold UINT64_MOD in Hhi. lia.
Qed.

Lemma factorial_is_fact_mod_witness :
  factorial 25 = math_factorial (Z.to_nat 25) mod 2 ^ 64.
Proof. apply (factorial_is_fact_mod 25). unfold uint64, UINT64_MOD. lia. Defined.

(** X6. [factorial(n)] is exactly [n!] for [n <= 20] and for no larger
    [uint64_t] value: [21!] is the first factorial that overflows. *)
Theorem factorial_exact_iff (n : Z) :
  uint64 n →
  (factorial n = math_factorial (Z.to_nat n) ↔ n <= 20).
Proof.
  intros Hn. pose proof (factorial_range n) as Hr. unfold uint64, UINT64_MOD in *.
  split.
  - intros Heq. destruct (decide (n <= 20)) as [|Hbig]; [done|exfalso].
    pose proof (math_factorial_mono 21 (Z.to_nat n) ltac:(lia)) as Hm.
    assert (2 ^ 64 < math_factorial 21) by (vm_compute; reflexivity).
    lia.
  - intros Hle. rewrite factorial_is_fact_mod by (unfold uint64, UINT64_MOD; lia).
    apply Z.mod_small.
    pose proof (math_factorial_pos (Z.to_nat n)).
    pose proof (math_factorial_mono (Z.to_nat n) 20 ltac:(lia)) as Hm.
    assert (math_factorial 20 < 2 ^ 64) by (vm_compute; reflexivity).
    lia.
Qed.

Lemma factorial_exact_iff_witness :
  factorial 20 = math_factorial (Z.to_nat 20) ↔ 20 <= 20.
Proof. apply (factorial_exact_iff 20). unfold uint64, UINT64_MOD. lia. Defined.

Lemma factorial_zero_from_66 (k : nat) :
  66 + Z.of_nat k < 2 ^ 64 → factorial (66 + Z.of_nat k) = 0.
Proof.
  induction k as [|k IH]; intros Hk; [vm_compute; reflexivity|].
  rewrite factorial_body.
  destruct (decide (66 + Z.of_nat (S k) <= 1)) as [|_]; [lia|].
  replace (66 + Z.of_nat (S k) - 1) with (66 + Z.of_nat k) by lia.
  rewrite (wrap64_small (66 + Z.of_nat k)) by (unfold uint64, UINT64_MOD; lia).
  rewrite IH by lia. rewrite Z.mul_0_r. reflexivity.
Qed.

Lemma factorial_nonzero_below_66 :
  forallb (λ k, negb (factorial (Z.of_nat k) =? 0)) (seq 0 66) = true.
Proof. vm_compute. reflexivity. Qed.

(** X7. [factorial(n)] is [0] exactly from [n = 66] on: [66!] is the first
    factorial that [2^64] divides, so every larger argument gives [0] too. *)
Theorem factorial_zero_iff (n : Z) :
  uint64 n →
  (factorial n = 0 ↔ 66 <= n).
Proof.
  intros [Hlo Hhi]. unfold UINT64_MOD in Hhi. split.
  - intros Hz. destruct (decide (66 <= n)) as [|Hsmall]; [done|exfalso].
    pose proof factorial_nonzero_below_66 as Hall.
    rewrite forallb_forall in Hall.
    specialize (Hall (Z.to_nat n)). rewrite Z2Nat.id, Hz in Hall by done.
    discriminate Hall. apply in_seq. lia.
  - intros Hbig. replace n with (66 + Z.of_nat (Z.to_nat (n - 66))) by lia.
    apply factorial_zero_from_66. lia.
Qed.

Lemma factorial_zero_iff_witness : factorial 100 = 0 ↔ 66 <= 100.
Proof. apply (factorial_zero_iff 100). unfold uint64, UINT64_MOD. lia. Defined.

Lemma factorial_within_short (depth : nat) : ∀ n,
  n < 2 ^ 64 → (depth < Z.to_nat n)%nat → factorial_within depth n = None.
Proof.
  induction depth as [|depth IH]; intros n Hn Hd; [reflexivity|].
  cbn [factorial_within]. destruct (decide (n <= 1)) as [|_]; [lia|].
  rewrite (wrap64_small (n - 1)) by (unfold uint64, UINT64_MOD; lia).
  rewrite IH by lia. reflexivity.
Qed.

(** X8. Evaluating [factorial(n)] nests exactly [max 1 n] calls: with a
    smaller bound on the depth of the recursion it does not finish, with
    that bound or a larger one it returns [factorial(n)]. *)
Theorem factorial_depth (n : Z) (depth : nat) :
  uint64 n →
  (factorial_within depth n = None ↔ (depth < Nat.max 1 (Z.to_nat n))%nat)
  ∧ (factorial_within depth n = Some (factorial n)
     ↔ (Nat.max 1 (Z.to_nat n) ≤ depth)%nat).
Proof.
  intros [Hlo Hhi]. unfold UINT64_MOD in Hhi.
  destruct (decide (Nat.max 1 (Z.to_nat n) ≤ depth)%nat) as [Hok | Hshort].
  - rewrite factorial_within_enough by lia.
    split; split; first [done | lia].
  - assert (factorial_within depth n = None) as ->.
    { destruct depth as [|depth]; [reflexivity|].
      apply factorial_within_short; lia. }
    split; split; first [done | lia].
Qed.

Lemma factorial_depth_witness :
  (factorial_within 4 5 = None ↔ (4 < Nat.max 1 (Z.to_nat 5))%nat)
  ∧ (factorial_within 4 5 = Some (factorial 5)
     ↔ (Nat.max 1 (Z.to_nat 5) ≤ 4)%nat).
Proof. apply (factorial_depth 5 4). unfold uint64, UINT64_MOD. lia. Defined.

(** ** is_palindrome: what it is blind to *)

Lemma same_ignoring_case_tolower a b :
  same_ignoring_case a b ↔ tolower (code a) = tolower (code b).
Proof.
  pose proof (tolower_same false a b) as H.
  unfold char_to_int in H. cbn [andb] in H. rewrite Z.eqb_eq in H.
  symmetry. exact H.
Qed.

Lemma Forall2_same_ignoring_case l : ∀ k,
  Forall2 same_ignoring_case l k
  ↔ map (λ c, tolower (code c)) l = map (λ c, tolower (code c)) k.
Proof.
  induction l as [|a l IH]; intros [|b k]; simpl.
  - split; [reflexivity | constructor].
  - split; [inversion 1 | discriminate].
  - split; [inversion 1 | discriminate].
  - split.
    + inversion 1 as [|? ? ? ? Hab Hlk]; subst.
      apply same_ignoring_case_tolower in Hab. apply IH in Hlk. congruence.
    + intros [= Hab Hlk]. constructor.
      * by apply same_ignoring_case_tolower.
      * by apply IH.
Qed.

(** The property of the specification, on the lower-cased characters. *)
Lemma spec_palindrome_tolower s :
  spec_palindrome s ↔
  map (λ c, tolower (code c)) (filter alphanumeric s) =
  rev (map (λ c, tolower (code c)) (filter alphanumeric s)).
Proof.
  unfold spec_palindrome, reads_same_both_ways, alphanumeric_subsequence.
  by rewrite Forall2_same_ignoring_case, map_rev.
Qed.

Lemma is_palindrome_true_iff sg s :
  is_palindrome sg s = Some true ↔ spec_palindrome s.
Proof.
  destruct (is_palindrome_spec sg s) as (b & -> & Hb).
  rewrite <- Hb. split; congruence.
Qed.

(** Strings with the same answer to the specification's question get the
    same result. *)
Lemma is_palindrome_ext sg s1 s2 :
  (spec_palindrome s1 ↔ spec_palindrome s2) →
  is_palindrome sg s1 = is_palindrome sg s2.
Proof.
  intros Hiff.
  destruct (is_palindrome_spec sg s1) as (b1 & -> & H1).
  destruct (is_palindrome_spec sg s2) as (b2 & -> & H2).
  f_equal. destruct b1, b2; try reflexivity.
  - symmetry. apply H2, Hiff, H1. reflexivity.
  - apply H1, Hiff, H2. reflexivity.
Qed.

Lemma filter_alphanumeric_rev (s : list ascii) :
  filter alphanumeric (rev s) = rev (filter alphanumeric s).
Proof.
  induction s as [|c s IH]; [reflexivity|].
  simpl. rewrite filter_app, IH, filter_cons.
  destruct (decide (alphanumeric c)); simpl.
  - by rewrite filter_cons, decide_True.
  - rewrite filter_cons, decide_False by done. by rewrite app_nil_r.
Qed.

Lemma same_ignoring_case_alphanumeric a b :
  same_ignoring_case a b → (alphanumeric a ↔ alphanumeric b).
Proof.
  unfold same_ignoring_case, alphanumeric, is_digit, is_upper, is_lower.
  intros [-> | H]; [reflexivity | lia].
Qed.

Lemma Forall2_same_filter (s1 s2 : list ascii) :
  Forall2 same_ignoring_case s1 s2 →
  Forall2 same_ignoring_case (filter alphanumeric s1) (filter alphanumeric s2).
Proof.
  induction 1 as [|a b s1 s2 Hab _ IH]; [constructor|].
  rewrite !filter_cons. apply same_ignoring_case_alphanumeric in Hab as Hiff.
  destruct (decide (alphanumeric a)), (decide (alphanumeric b));
    first [by constructor | done | tauto].
Qed.

(** X9. A string and its reversal get the same result. *)
Theorem is_palindrome_rev (char_is_signed : bool) (s : list ascii) :
  is_palindrome char_is_signed (rev s) = is_palindrome char_is_signed s.
Proof.
  apply is_palindrome_ext. rewrite !spec_palindrome_tolower.
  rewrite filter_alphanumeric_rev, map_rev, rev_involutive.
  split; intros H; by rewrite <- H at 1.
Qed.

(** X10. A string followed by its reversal is a palindrome, and so is a
    string, one more character, and the reversal of the string. *)
Theorem is_palindrome_mirror (char_is_signed : bool) (s : list ascii) :
  is_palindrome char_is_signed (s ++ rev s) = Some true
  ∧ ∀ c, is_palindrome char_is_signed (s ++ c :: rev s) = Some true.
Proof.
  split; [|intros c]; apply is_palindrome_true_iff, spec_palindrome_tolower.
  - rewrite filter_app, filter_alphanumeric_rev, map_app, map_rev.
    by rewrite rev_app_distr, rev_involutive.
  - rewrite filter_app, filter_cons, filter_alphanumeric_rev.
    destruct (decide (alphanumeric c)).
    + rewrite map_app. simpl. rewrite map_rev, rev_app_distr. simpl.
      by rewrite rev_involutive, <- app_assoc.
    + rewrite map_app, map_rev. by rewrite rev_app_distr, rev_involutive.
Qed.

(** X11. A character that is neither a letter nor a digit can be put into a
    string, or taken out, at any place without changing the result. *)
Theorem is_palindrome_skips_non_alnum
    (char_is_signed : bool) (s1 s2 : list ascii) (c : ascii) :
  ¬ alphanumeric c →
  is_palindrome char_is_signed (s1 ++ c :: s2) =
  is_palindrome char_is_signed (s1 ++ s2).
Proof.
  intros Hc. unfold is_palindrome. rewrite !copy_if_filter.
  by rewrite !filter_app, filter_cons, decide_False.
Qed.

Lemma is_palindrome_skips_non_alnum_witness :
  is_palindrome true (list_ascii_of_string "ab" ++ ","%char :: list_ascii_of_string "a") =
  is_palindrome true (list_ascii_of_string "ab" ++ list_ascii_of_string "a").
Proof.
  apply (is_palindrome_skips_non_alnum true).
  unfold alphanumeric, is_digit, is_upper, is_lower. vm_compute.
  intuition congruence.
Defined.

(** X12. Changing the case of letters does not change the result: two
    strings that agree character by character up to case get the same
    result. *)
Theorem is_palindrome_ignores_case (char_is_signed : bool) (s1 s2 : list ascii) :
  Forall2 same_ignoring_case s1 s2 →
  is_palindrome char_is_signed s1 = is_palindrome char_is_signed s2.
Proof.
  intros H%Forall2_same_filter%Forall2_same_ignoring_case.
  apply is_palindrome_ext. rewrite !spec_palindrome_tolower. by rewrite H.
Qed.

Lemma is_palindrome_ignores_case_witness :
  is_palindrome true (list_ascii_of_string "Ab a") =
  is_palindrome true (list_ascii_of_string "aB A").
Proof.
  apply (is_palindrome_ignores_case true).
  repeat constructor; unfold same_ignoring_case, is_upper; vm_compute;
    intuition congruence.
Defined.

(** X13. Between two alphanumeric end characters: the string is a palindrome
    exactly when the two ends are the same up to case and what lies between
    them is a palindrome. *)
Theorem is_palindrome_ends (char_is_signed : bool) (a b : ascii) (s : list ascii) :
  alphanumeric a → alphanumeric b →
  (is_palindrome char_is_signed (a :: s ++ [b]) = Some true
   ↔ same_ignoring_case a b ∧ is_palindrome char_is_signed s = Some true).
Proof.
  intros Ha Hb. rewrite !is_palindrome_true_iff, !spec_palindrome_tolower.
  rewrite same_ignoring_case_tolower.
  rewrite filter_cons, decide_True, filter_app, filter_cons, decide_True by done.
  simpl. rewrite map_app, rev_app_distr. simpl.
  set (m := map _ (filter alphanumeric s)).
  split.
  - intros [= Hab Hm]. apply app_inj_tail in Hm as [Hm _]. done.
  - intros [-> <-]. reflexivity.
Qed.

Lemma is_palindrome_ends_witness :
  is_palindrome true ("R"%char :: list_ascii_of_string "ada" ++ ["r"%char]) = Some true
  ↔ same_ignoring_case "R" "r" ∧ is_palindrome true (list_ascii_of_string "ada") = Some true.
Proof.
  apply (is_palindrome_ends true "R" "r" (list_ascii_of_string "ada"));
    unfold alphanumeric, is_digit, is_upper, is_lower; vm_compute;
    intuition congruence.
Defined.
